(** * Swap relation builders of the zecrey package (swapTypes.go)

    A shallow embedding of [NewSwapRelationPart1] and [NewSwapRelationPart2]
    and the properties their callers rely on: the order of the precondition
    checks, the witness invariant of a returned relation, the derived public
    points, and how the fee and the two amounts enter each leg.

    Go values are modelled as follows.
    - A pointer ([*big.Int], [*Point], [*ElGamalEnc], [*SwapProofPart]) is an
      [option]: [None] is [nil].  Dereferencing [nil] is a run-time panic,
      the [NilDeref] outcome below.
    - [*big.Int] values are unbounded integers, [Z].
    - [uint32] token ids are [N]; they are only compared and widened by
      [int64(..)], never used in arithmetic, so no wrap-around arises.
    - [(rel, nil)] is [Returned rel] and [(nil, err)] is [Failed err].
    - The curve package, [ffmath.ModInverse] and the constant [RangeMaxBits]
      are not among the sources; they are parameters (type classes).  The
      successive results of [curve.RandomValue] are read from a tape. *)

From Stdlib Require Import ZArith NArith List Bool Lia Morphisms.
From AAC_tactics Require Import AAC.
Import ListNotations.
Local Open Scope Z_scope.

(** ** Errors and outcomes of a call *)

Inductive error : Set :=
| ErrInvalidParams
| ErrInconsistentPublicKey
| ErrIncorrectBalance
| ErrInsufficientBalance
| ErrPostiveBStar
| ErrInvalidSwapProof.

Inductive outcome (A : Type) : Type :=
| Returned (a : A)
| Failed (e : error)
| NilDeref.

Arguments Returned {A} a.
Arguments Failed {A} e.
Arguments NilDeref {A}.

Definition bind {A B : Type} (m : outcome A) (k : A -> outcome B) : outcome B :=
  match m with
  | Returned a => k a
  | Failed e => Failed e
  | NilDeref => NilDeref
  end.

Notation "x <- m ;; k" := (bind m (fun x => k))
  (at level 61, m at next level, right associativity).

(** [*p]: reading through a pointer. *)
Definition deref {A : Type} (p : option A) : outcome A :=
  match p with
  | Some a => Returned a
  | None => NilDeref
  end.

(** [p == nil]. *)
Definition isNil {A : Type} (p : option A) : bool :=
  match p with
  | Some _ => false
  | None => true
  end.

(** Go's [a || b]: [b] is evaluated only when [a] is false. *)
Definition orElse (a b : outcome bool) : outcome bool :=
  x <- a ;; if x then Returned true else b.

Notation "a ||| b" := (orElse a b) (at level 50, left associativity).

(** [x.Cmp(y)] of math/big: -1, 0 or +1. *)
Definition Cmp (x y : Z) : Z :=
  match x ?= y with
  | Lt => -1
  | Eq => 0
  | Gt => 1
  end.

Definition Zero : Z := 0.

(** ** The imported packages *)

Module curve.

(** The curve group the package is written against: points, the two fixed
    generators and the group order. *)
Class Group : Type := {
  Point : Type;
  Add : Point -> Point -> Point;
  Neg : Point -> Point;
  ScalarMul : Point -> Z -> Point;
  Equal : Point -> Point -> bool;
  G : Point;
  H : Point;
  Order : Z
}.

(** [p.Equal(q)] decides equality of points. *)
Class Laws (grp : Group) : Prop := {
  Equal_eq : forall p q : Point, Equal p q = true <-> p = q
}.

Definition ScalarBaseMul {grp : Group} (k : Z) : Point := ScalarMul G k.

(** The scalars that successive calls of [RandomValue] return. *)
Definition tape : Type := nat -> Z.

Definition RandomValue (t : tape) : Z * tape := (t O, fun n => t (S n)).

End curve.

Module ffmath.

Class Field : Type := {
  (** [new(big.Int).ModInverse(a, n)]; [None] is the nil result. *)
  ModInverse : Z -> Z -> option Z
}.

Definition Add (a b : Z) : Z := a + b.
Definition Sub (a b : Z) : Z := a - b.
Definition Neg (a : Z) : Z := - a.

End ffmath.

Class Config : Type := {
  RangeMaxBits : nat
}.

(** A ciphertext is a pair of points (spec, data model). *)
Record ElGamalEnc {grp : curve.Group} : Type := mkElGamalEnc {
  CL : curve.Point;
  CR : curve.Point
}.

Module twistedElgamal.

(** Modelled from the spec: [twistedElgamal.Enc] is not among the sources.
    "Encrypt(value, randomness, pk) computes CL = pk^randomness,
    CR = g^randomness . h^value". *)
Definition Enc {grp : curve.Group} (b r : Z) (pk : curve.Point) : outcome ElGamalEnc :=
  Returned {| CL := curve.ScalarMul pk r;
              CR := curve.Add (curve.ScalarBaseMul r) (curve.ScalarMul curve.H b) |}.

End twistedElgamal.

Module pedersen.

(** Modelled from the spec: [pedersen.Commit] is not among the sources.
    "Commit(blinding, value) = g^blinding . h^value". *)
Definition Commit {grp : curve.Group} (a r : Z) (g h : curve.Point) : outcome curve.Point :=
  Returned (curve.Add (curve.ScalarMul g a) (curve.ScalarMul h r)).

End pedersen.

(** ** The structs *)

Module SwapProofPart.

(** The fields of a published part that relation construction can see:
    the two linkage points and the block of common inputs.  The sigma
    commitments, the responses, the range proof and the challenge are the
    prover's and are not read by the builders. *)
Record t {grp : curve.Group} : Type := mk {
  Pt1 : option curve.Point;
  Pt2 : option curve.Point;
  BStar1 : option Z;
  BStar2 : option Z;
  Fee : option Z;
  RStar : option Z;
  CStar : option ElGamalEnc;
  C : option ElGamalEnc;
  ReceiverCStar : option ElGamalEnc;
  ReceiverC : option ElGamalEnc;
  ReceiverPk : option curve.Point;
  G : option curve.Point;
  H : option curve.Point;
  Ht1 : option curve.Point;
  Ht2 : option curve.Point;
  TDivCRprime : option curve.Point;
  CLprimeInv : option curve.Point;
  T : option curve.Point;
  Pk : option curve.Point
}.

End SwapProofPart.

Module SwapProofRelationPart.

(** Fields hold what the builders store.  Every pointer they store has been
    read through before, except [Fee], which [NewSwapRelationPart2] copies
    from the published part as it is. *)
Record t {grp : curve.Group} : Type := mk {
  C : ElGamalEnc;
  CStar : ElGamalEnc;
  ReceiverC : ElGamalEnc;
  ReceiverCStar : ElGamalEnc;
  ReceiverPk : curve.Point;
  T : curve.Point;
  Pk : curve.Point;
  Ht1 : curve.Point;
  Ht2 : curve.Point;
  Pt1 : curve.Point;
  Pt2 : curve.Point;
  G : curve.Point;
  H : curve.Point;
  FromTokenId : N;
  ToTokenId : N;
  TDivCRprime : curve.Point;
  CLprimeInv : curve.Point;
  BStarFrom : Z;
  BStarTo : Z;
  Fee : option Z;
  RStar : Z;
  Sk : Z;
  BPrime : Z;
  RBar : Z;
  Rs : list Z
}.

End SwapProofRelationPart.

(** ** The builders *)

Section Builders.

Context {grp : curve.Group} {ff : ffmath.Field} {cfg : Config}.

(** The loop [for i := 0; i < RangeMaxBits; i++ { rs[i] = RandomValue();
    rBar.Add(rBar, rs[i]) }], run for [n] rounds from accumulator [rBar]. *)
Fixpoint sampleBlindings (n : nat) (t : curve.tape) (rBar : Z) : list Z * Z * curve.tape :=
  match n with
  | O => ([], rBar, t)
  | S n' =>
      let (r, t') := curve.RandomValue t in
      let '(rs, rBar', t'') := sampleBlindings n' t' (rBar + r) in
      (r :: rs, rBar', t'')
  end.

(** The opening test of [NewSwapRelationPart1]. *)
Definition invalidParams1
    (C receiverC : option ElGamalEnc) (pk receiverPk : option curve.Point)
    (bStarFrom bStarTo sk : option Z) (fromTokenId toTokenId : N) (fee : option Z)
    : outcome bool :=
  Returned (isNil C) ||| Returned (isNil receiverC) ||| Returned (isNil pk)
  ||| Returned (isNil receiverPk) ||| Returned (isNil bStarFrom)
  ||| Returned (isNil bStarTo) ||| Returned (isNil sk)
  ||| Returned (fromTokenId =? 0)%N ||| Returned (toTokenId =? 0)%N
  ||| Returned (fromTokenId =? toTokenId)%N ||| Returned (isNil fee)
  ||| (f <- deref fee ;; Returned (Cmp f Zero <? 0)).

Definition NewSwapRelationPart1
    (C receiverC : option ElGamalEnc) (pk receiverPk : option curve.Point)
    (b bStarFrom bStarTo sk : option Z) (fromTokenId toTokenId : N) (fee : option Z)
    (rnd : curve.tape) : outcome SwapProofRelationPart.t :=
  bad <- invalidParams1 C receiverC pk receiverPk bStarFrom bStarTo sk fromTokenId toTokenId fee ;;
  if bad then Failed ErrInvalidParams else
  (* check if the public key is valid *)
  sk_ <- deref sk ;;
  pk_ <- deref pk ;;
  let oriPk := curve.ScalarBaseMul sk_ in
  if negb (curve.Equal oriPk pk_) then Failed ErrInconsistentPublicKey else
  (* check if the b is correct *)
  C_ <- deref C ;;
  skInv <- deref (ffmath.ModInverse sk_ curve.Order) ;;
  let hb := curve.Add (CR C_) (curve.Neg (curve.ScalarMul (CL C_) skInv)) in
  b_ <- deref b ;;
  let hbCheck := curve.ScalarMul curve.H b_ in
  if negb (curve.Equal hb hbCheck) then Failed ErrIncorrectBalance else
  (* check balance *)
  if Cmp b_ Zero <=? 0 then Failed ErrInsufficientBalance else
  bStarFrom_ <- deref bStarFrom ;;
  if Cmp bStarFrom_ Zero <=? 0 then Failed ErrPostiveBStar else
  (* b' = b - b^* - fee *)
  fee_ <- deref fee ;;
  let bPrime := ffmath.Sub (ffmath.Sub b_ bStarFrom_) fee_ in
  if Cmp bPrime Zero <? 0 then Failed ErrInsufficientBalance else
  let deltaBalance := ffmath.Add bStarFrom_ fee_ in
  let (rStar, t1) := curve.RandomValue rnd in
  CStar <- twistedElgamal.Enc (ffmath.Neg deltaBalance) rStar pk_ ;;
  receiverPk_ <- deref receiverPk ;;
  receiverCStar <- twistedElgamal.Enc deltaBalance rStar receiverPk_ ;;
  let '(rs, rBar, _) := sampleBlindings RangeMaxBits t1 0 in
  let rBar := rBar mod curve.Order in
  (* T = g^rBar h^b' *)
  T <- pedersen.Commit rBar bPrime curve.G curve.H ;;
  receiverC_ <- deref receiverC ;;
  bStarTo_ <- deref bStarTo ;;
  let Ht1 := curve.ScalarMul curve.H (Z.of_N fromTokenId) in
  let Ht2 := curve.ScalarMul curve.H (Z.of_N toTokenId) in
  Returned {|
    SwapProofRelationPart.C := C_;
    SwapProofRelationPart.CStar := CStar;
    SwapProofRelationPart.ReceiverC := receiverC_;
    SwapProofRelationPart.ReceiverCStar := receiverCStar;
    SwapProofRelationPart.ReceiverPk := receiverPk_;
    SwapProofRelationPart.T := T;
    SwapProofRelationPart.Pk := pk_;
    SwapProofRelationPart.G := curve.G;
    SwapProofRelationPart.H := curve.H;
    SwapProofRelationPart.Ht1 := Ht1;
    SwapProofRelationPart.Ht2 := Ht2;
    SwapProofRelationPart.FromTokenId := fromTokenId;
    SwapProofRelationPart.ToTokenId := toTokenId;
    SwapProofRelationPart.TDivCRprime := curve.Add T (curve.Neg (curve.Add (CR C_) (CR CStar)));
    SwapProofRelationPart.CLprimeInv := curve.Neg (curve.Add (CL C_) (CL CStar));
    SwapProofRelationPart.BStarFrom := bStarFrom_;
    SwapProofRelationPart.BStarTo := bStarTo_;
    SwapProofRelationPart.Fee := fee;
    SwapProofRelationPart.RStar := rStar;
    SwapProofRelationPart.Sk := sk_;
    SwapProofRelationPart.BPrime := bPrime;
    SwapProofRelationPart.RBar := rBar;
    SwapProofRelationPart.Rs := rs;
    SwapProofRelationPart.Pt1 := curve.ScalarMul Ht1 sk_;
    SwapProofRelationPart.Pt2 := curve.ScalarMul Ht2 sk_
  |}.

(** The opening test of [NewSwapRelationPart2].  [proof.Ht1], [proof.Ht2]
    are read only after [proof == nil] was false; [proof.BStar1.Cmp] and
    [proof.BStar2.Cmp] read through pointers that no disjunct tests. *)
Definition invalidParams2
    (C receiverC : option ElGamalEnc) (pk receiverPk : option curve.Point)
    (sk : option Z) (fromTokenId toTokenId : N) (proof : option SwapProofPart.t)
    : outcome bool :=
  Returned (isNil C) ||| Returned (isNil receiverC) ||| Returned (isNil pk)
  ||| Returned (isNil receiverPk) ||| Returned (isNil sk) ||| Returned (isNil proof)
  ||| Returned (fromTokenId =? 0)%N ||| Returned (toTokenId =? 0)%N
  ||| Returned (fromTokenId =? toTokenId)%N
  ||| (p <- deref proof ;; Returned (isNil (SwapProofPart.Ht1 p)))
  ||| (p <- deref proof ;; Returned (isNil (SwapProofPart.Ht2 p)))
  ||| (p <- deref proof ;; v <- deref (SwapProofPart.BStar1 p) ;; Returned (Cmp v 0 <=? 0))
  ||| (p <- deref proof ;; v <- deref (SwapProofPart.BStar2 p) ;; Returned (Cmp v 0 <=? 0)).

Definition NewSwapRelationPart2
    (C receiverC : option ElGamalEnc) (pk receiverPk : option curve.Point)
    (b sk : option Z) (fromTokenId toTokenId : N) (proof : option SwapProofPart.t)
    (rnd : curve.tape) : outcome SwapProofRelationPart.t :=
  bad <- invalidParams2 C receiverC pk receiverPk sk fromTokenId toTokenId proof ;;
  if bad then Failed ErrInvalidParams else
  (* check if the public key is valid *)
  sk_ <- deref sk ;;
  pk_ <- deref pk ;;
  let oriPk := curve.ScalarBaseMul sk_ in
  if negb (curve.Equal oriPk pk_) then Failed ErrInconsistentPublicKey else
  let Ht1 := curve.ScalarMul curve.H (Z.of_N fromTokenId) in
  let Ht2 := curve.ScalarMul curve.H (Z.of_N toTokenId) in
  proof_ <- deref proof ;;
  proofHt1 <- deref (SwapProofPart.Ht1 proof_) ;;
  proofHt2 <- deref (SwapProofPart.Ht2 proof_) ;;
  if negb (curve.Equal Ht1 proofHt1) || negb (curve.Equal Ht2 proofHt2)
  then Failed ErrInvalidSwapProof else
  (* check if the b is correct *)
  C_ <- deref C ;;
  skInv <- deref (ffmath.ModInverse sk_ curve.Order) ;;
  let hb := curve.Add (CR C_) (curve.Neg (curve.ScalarMul (CL C_) skInv)) in
  b_ <- deref b ;;
  let hbCheck := curve.ScalarMul curve.H b_ in
  if negb (curve.Equal hb hbCheck) then Failed ErrIncorrectBalance else
  (* check balance *)
  if Cmp b_ Zero <=? 0 then Failed ErrInsufficientBalance else
  bStar2 <- deref (SwapProofPart.BStar2 proof_) ;;
  if Cmp bStar2 Zero <=? 0 then Failed ErrPostiveBStar else
  (* b' = b - b^* *)
  let bPrime := ffmath.Sub b_ bStar2 in
  if Cmp bPrime Zero <? 0 then Failed ErrInsufficientBalance else
  let (rStar, t1) := curve.RandomValue rnd in
  CStar <- twistedElgamal.Enc (- bStar2) rStar pk_ ;;
  receiverPk_ <- deref receiverPk ;;
  receiverCStar <- twistedElgamal.Enc bStar2 rStar receiverPk_ ;;
  let '(rs, rBar, _) := sampleBlindings RangeMaxBits t1 0 in
  let rBar := rBar mod curve.Order in
  (* T = g^rBar h^b' *)
  T <- pedersen.Commit rBar bPrime curve.G curve.H ;;
  receiverC_ <- deref receiverC ;;
  bStar1 <- deref (SwapProofPart.BStar1 proof_) ;;
  Returned {|
    SwapProofRelationPart.C := C_;
    SwapProofRelationPart.CStar := CStar;
    SwapProofRelationPart.ReceiverC := receiverC_;
    SwapProofRelationPart.ReceiverCStar := receiverCStar;
    SwapProofRelationPart.ReceiverPk := receiverPk_;
    SwapProofRelationPart.T := T;
    SwapProofRelationPart.Pk := pk_;
    SwapProofRelationPart.G := curve.G;
    SwapProofRelationPart.H := curve.H;
    SwapProofRelationPart.Ht1 := Ht1;
    SwapProofRelationPart.Ht2 := Ht2;
    SwapProofRelationPart.FromTokenId := fromTokenId;
    SwapProofRelationPart.ToTokenId := toTokenId;
    SwapProofRelationPart.TDivCRprime := curve.Add T (curve.Neg (curve.Add (CR C_) (CR CStar)));
    SwapProofRelationPart.CLprimeInv := curve.Neg (curve.Add (CL C_) (CL CStar));
    SwapProofRelationPart.BStarFrom := bStar1;
    SwapProofRelationPart.BStarTo := bStar2;
    SwapProofRelationPart.Fee := SwapProofPart.Fee proof_;
    SwapProofRelationPart.RStar := rStar;
    SwapProofRelationPart.Sk := sk_;
    SwapProofRelationPart.BPrime := bPrime;
    SwapProofRelationPart.RBar := rBar;
    SwapProofRelationPart.Rs := rs;
    SwapProofRelationPart.Pt1 := curve.ScalarMul Ht1 sk_;
    SwapProofRelationPart.Pt2 := curve.ScalarMul Ht2 sk_
  |}.

(** Modelled from the spec: [ProveSwapPart1] is not among the sources.  Of
    the part it publishes, relation construction sees the "copies of all
    public relation fields"; [BStar1], [BStar2] are the copies of the first
    party's [BStarFrom], [BStarTo]. *)
Definition publishedPart (r : SwapProofRelationPart.t) : SwapProofPart.t :=
  {|
    SwapProofPart.Pt1 := Some (SwapProofRelationPart.Pt1 r);
    SwapProofPart.Pt2 := Some (SwapProofRelationPart.Pt2 r);
    SwapProofPart.BStar1 := Some (SwapProofRelationPart.BStarFrom r);
    SwapProofPart.BStar2 := Some (SwapProofRelationPart.BStarTo r);
    SwapProofPart.Fee := SwapProofRelationPart.Fee r;
    SwapProofPart.RStar := Some (SwapProofRelationPart.RStar r);
    SwapProofPart.CStar := Some (SwapProofRelationPart.CStar r);
    SwapProofPart.C := Some (SwapProofRelationPart.C r);
    SwapProofPart.ReceiverCStar := Some (SwapProofRelationPart.ReceiverCStar r);
    SwapProofPart.ReceiverC := Some (SwapProofRelationPart.ReceiverC r);
    SwapProofPart.ReceiverPk := Some (SwapProofRelationPart.ReceiverPk r);
    SwapProofPart.G := Some (SwapProofRelationPart.G r);
    SwapProofPart.H := Some (SwapProofRelationPart.H r);
    SwapProofPart.Ht1 := Some (SwapProofRelationPart.Ht1 r);
    SwapProofPart.Ht2 := Some (SwapProofRelationPart.Ht2 r);
    SwapProofPart.TDivCRprime := Some (SwapProofRelationPart.TDivCRprime r);
    SwapProofPart.CLprimeInv := Some (SwapProofRelationPart.CLprimeInv r);
    SwapProofPart.T := Some (SwapProofRelationPart.T r);
    SwapProofPart.Pk := Some (SwapProofRelationPart.Pk r)
  |}.

(** The sum of a list of scalars. *)
Definition sumZ (l : list Z) : Z := fold_right Z.add 0 l.

End Builders.

(** ** A small instance to run the builders on

    The additive group of integers modulo the prime 101, generated by 1,
    with [H = 5]; scalar multiplication is multiplication modulo 101. *)

Module Toy.

Definition q : Z := 101.

Definition inverse (a n : Z) : option Z :=
  find (fun x => (a * x) mod n =? 1) (map Z.of_nat (seq 0 (Z.to_nat n))).

#[export] Instance group : curve.Group := {|
  curve.Point := Z;
  curve.Add := fun a b => (a + b) mod q;
  curve.Neg := fun a => (- a) mod q;
  curve.ScalarMul := fun p k => (p * k) mod q;
  curve.Equal := Z.eqb;
  curve.G := 1;
  curve.H := 5;
  curve.Order := q
|}.

#[export] Instance field : ffmath.Field := {| ffmath.ModInverse := inverse |}.

#[export] Instance config : Config := {| RangeMaxBits := 32 |}.

(** The randomness of the runs below: the n-th draw is [n + 11]. *)
Definition rnd : curve.tape := fun n => Z.of_nat n + 11.

(** First party: secret key 3, balance 8 encrypted with randomness 2. *)
Definition sk1 : Z := 3.
Definition pk1 : Z := 3.
Definition bEnc1 : ElGamalEnc := {| CL := 6; CR := 42 |}.

(** Second party: secret key 7; balance 3 encrypted with randomness 4, and
    balance 8 encrypted with randomness 9. *)
Definition sk2 : Z := 7.
Definition pk2 : Z := 7.
Definition bEnc2 : ElGamalEnc := {| CL := 28; CR := 19 |}.
Definition bEnc3 : ElGamalEnc := {| CL := 63; CR := 49 |}.
(** Balance 8 of the first party, encrypted with randomness 6. *)
Definition bEnc4 : ElGamalEnc := {| CL := 18; CR := 46 |}.

(** Side-1 calls of the first party towards the second, with
    [bStarTo = 8] and [toTokenId = 2]. *)
Definition side1 (pk : option Z) (b bStarFrom : option Z) (fromTokenId : N)
    (fee : option Z) : outcome SwapProofRelationPart.t :=
  NewSwapRelationPart1 (Some bEnc1) (Some bEnc2) pk (Some pk2)
    b bStarFrom (Some 8) (Some sk1) fromTokenId 2%N fee rnd.

(** The side-1 call of the reference scenario (as in [FakeSwapProof]):
    b = 8, bStarFrom = 1, bStarTo = 8, tokens (1, 2), fee 0. *)
Definition relationPart1 : outcome SwapProofRelationPart.t :=
  side1 (Some pk1) (Some 8) (Some 1) 1%N (Some 0).

(** Side-2 calls of the second party, with balance 8 and tokens (1, 2). *)
Definition side2 (proof : option SwapProofPart.t) : outcome SwapProofRelationPart.t :=
  NewSwapRelationPart2 (Some bEnc3) (Some bEnc4) (Some pk2) (Some pk1)
    (Some 8) (Some sk2) 1%N 2%N proof rnd.

(** The part the first party publishes from a relation it obtained. *)
Definition publish (o : outcome SwapProofRelationPart.t) : option SwapProofPart.t :=
  match o with
  | Returned r => Some (publishedPart r)
  | _ => None
  end.

Definition swapProofPart1 : option SwapProofPart.t := publish relationPart1.

(** The side-2 call of the reference scenario: balance 8, the first
    party's part, same token pair. *)
Definition relationPart2 : outcome SwapProofRelationPart.t := side2 swapProofPart1.

(** A part of the first party made for another token pair, (3, 2). *)
Definition otherPairPart1 : option SwapProofPart.t :=
  publish (side1 (Some pk1) (Some 8) (Some 1) 3%N (Some 0)).

(** A part whose [BStar2] is zero and whose [BStar1] is nil. *)
Definition zeroBStar2Part : SwapProofPart.t :=
  {|
    SwapProofPart.Pt1 := Some 15; SwapProofPart.Pt2 := Some 30;
    SwapProofPart.BStar1 := None; SwapProofPart.BStar2 := Some 0;
    SwapProofPart.Fee := Some 0; SwapProofPart.RStar := Some 11;
    SwapProofPart.CStar := None; SwapProofPart.C := None;
    SwapProofPart.ReceiverCStar := None; SwapProofPart.ReceiverC := None;
    SwapProofPart.ReceiverPk := Some 7;
    SwapProofPart.G := Some 1; SwapProofPart.H := Some 5;
    SwapProofPart.Ht1 := Some 5; SwapProofPart.Ht2 := Some 10;
    SwapProofPart.TDivCRprime := None; SwapProofPart.CLprimeInv := None;
    SwapProofPart.T := None; SwapProofPart.Pk := Some 3
  |}.

End Toy.
(** ** Assumptions on the imported arithmetic

    The facts about the curve and about [ModInverse] that the algebraic
    properties of the builders rest on.  They are stated without naming
    the neutral point, which the package never mentions. *)

(** The points form an abelian group under [Add] and [Neg], [ScalarMul] is
    its action by integers, and the base point has the order [Order]. *)
Class AbelianLaws (grp : curve.Group) : Prop := {
  Add_assoc : forall a b c : curve.Point,
    curve.Add a (curve.Add b c) = curve.Add (curve.Add a b) c;
  Add_comm : forall a b : curve.Point, curve.Add a b = curve.Add b a;
  Add_cancel : forall a b c : curve.Point,
    curve.Add (curve.Add a b) (curve.Add (curve.Neg b) c) = curve.Add a c;
  Neg_Add : forall a b : curve.Point,
    curve.Neg (curve.Add a b) = curve.Add (curve.Neg a) (curve.Neg b);
  ScalarMul_plus : forall (p : curve.Point) (j k : Z),
    curve.ScalarMul p (j + k) = curve.Add (curve.ScalarMul p j) (curve.ScalarMul p k);
  ScalarMul_opp : forall (p : curve.Point) (k : Z),
    curve.ScalarMul p (- k) = curve.Neg (curve.ScalarMul p k);
  ScalarMul_assoc : forall (p : curve.Point) (j k : Z),
    curve.ScalarMul (curve.ScalarMul p j) k = curve.ScalarMul p (j * k);
  ScalarMul_Neg_l : forall (p : curve.Point) (k : Z),
    curve.ScalarMul (curve.Neg p) k = curve.Neg (curve.ScalarMul p k);
  ScalarMul_Add_l : forall (p q : curve.Point) (k : Z),
    curve.ScalarMul (curve.Add p q) k
    = curve.Add (curve.ScalarMul p k) (curve.ScalarMul q k);
  ScalarBaseMul_mod : forall k : Z,
    curve.ScalarBaseMul k = curve.ScalarBaseMul (k mod curve.Order)
}.

(** A non-nil result of [ModInverse(a, Order)] is an inverse of [a]. *)
Class InverseLaws (grp : curve.Group) (ff : ffmath.Field) : Prop := {
  ModInverse_inverse : forall a x : Z,
    ffmath.ModInverse a curve.Order = Some x -> (a * x) mod curve.Order = 1
}.

(** ** Basic facts *)

Lemma Cmp_Zero_ltb (x : Z) : (Cmp x Zero <? 0) = (x <? 0).
Proof.
  unfold Cmp, Zero.
  destruct (Z.compare_spec x 0) as [e | l | g].
  - subst x. reflexivity.
  - symmetry. cbn. apply Z.ltb_lt. exact l.
  - symmetry. cbn. apply Z.ltb_ge. lia.
Qed.

Lemma Cmp_Zero_leb (x : Z) : (Cmp x Zero <=? 0) = (x <=? 0).
Proof.
  unfold Cmp, Zero.
  destruct (Z.compare_spec x 0) as [e | l | g].
  - subst x. reflexivity.
  - symmetry. cbn. apply Z.leb_le. lia.
  - symmetry. cbn. apply Z.leb_gt. exact g.
Qed.

Lemma Cmp_0_leb (x : Z) : (Cmp x 0 <=? 0) = (x <=? 0).
Proof. exact (Cmp_Zero_leb x). Qed.

Section Facts.

Context {grp : curve.Group} {ff : ffmath.Field} {cfg : Config}.

(** The loop draws the next [n] scalars of the tape, in order, and adds
    them to the accumulator. *)
Lemma sampleBlindings_draws (n : nat) :
  forall (t : curve.tape) (acc : Z),
    fst (sampleBlindings n t acc)
    = (map t (seq 0 n), acc + sumZ (map t (seq 0 n))).
Proof.
  induction n as [| n IH]; intros t acc.
  - cbn. f_equal. lia.
  - cbn [sampleBlindings curve.RandomValue].
    specialize (IH (fun k => t (S k)) (acc + t O)).
    destruct (sampleBlindings n (fun k => t (S k)) (acc + t O)) as [[rs r] t'].
    cbn [fst seq map] in IH |- *.
    rewrite <- seq_shift, map_map.
    injection IH as -> ->.
    cbn [sumZ fold_right]. f_equal. unfold sumZ. lia.
Qed.

Lemma sampleBlindings_length (n : nat) (t : curve.tape) (acc : Z) :
  length (fst (fst (sampleBlindings n t acc))) = n.
Proof.
  rewrite sampleBlindings_draws. cbn [fst].
  now rewrite length_map, length_seq.
Qed.

Lemma sampleBlindings_sum (n : nat) (t : curve.tape) (acc : Z) :
  snd (fst (sampleBlindings n t acc))
  = acc + sumZ (fst (fst (sampleBlindings n t acc))).
Proof. now rewrite sampleBlindings_draws. Qed.

End Facts.

(** ** Running the builders symbolically *)

(** Reduce the plumbing of a builder (binds, pointer reads, the imported
    helpers) and leave arithmetic and curve operations alone. *)
Ltac run_in H :=
  unfold ffmath.Sub, ffmath.Add, ffmath.Neg in H;
  cbn [bind orElse deref isNil negb orb CL CR
       twistedElgamal.Enc pedersen.Commit curve.RandomValue] in H;
  rewrite ?Cmp_Zero_ltb, ?Cmp_Zero_leb, ?Cmp_0_leb in H.

Ltac run :=
  unfold ffmath.Sub, ffmath.Add, ffmath.Neg;
  cbn [bind orElse deref isNil negb orb CL CR
       twistedElgamal.Enc pedersen.Commit curve.RandomValue];
  rewrite ?Cmp_Zero_ltb, ?Cmp_Zero_leb, ?Cmp_0_leb.

(** Split on the test the run in [H] is stuck on: a pointer first, then
    the condition of the outermost pending test. *)
Ltac branch_in H :=
  match type of H with
  | context [isNil ?o] => destruct o eqn:?
  | context [deref ?o] => destruct o eqn:?
  | context [match ?test with _ => _ end] =>
      tryif (match test with context [match _ with _ => _ end] => idtac end)
      then fail
      else destruct test eqn:?
  end.

Ltac explore H := run_in H; repeat (branch_in H; run_in H; try discriminate H).

Lemma orElse_Returned (a b : bool) :
  Returned a ||| Returned b = Returned (a || b).
Proof. destruct a; reflexivity. Qed.

Lemma orElse_true (m : outcome bool) : Returned true ||| m = Returned true.
Proof. reflexivity. Qed.

Lemma orElse_false (m : outcome bool) : Returned false ||| m = m.
Proof. destruct m as [[|] | e |]; reflexivity. Qed.

Section Part1.

Context {grp : curve.Group} {ff : ffmath.Field} {cfg : Config}.

(** The opening test of side 1 never faults: it is the plain disjunction
    of its twelve conditions. *)
Lemma invalidParams1_eq C receiverC pk receiverPk bStarFrom bStarTo sk fromTokenId toTokenId fee :
  invalidParams1 C receiverC pk receiverPk bStarFrom bStarTo sk fromTokenId toTokenId fee
  = Returned (isNil C || isNil receiverC || isNil pk || isNil receiverPk
              || isNil bStarFrom || isNil bStarTo || isNil sk
              || (fromTokenId =? 0)%N || (toTokenId =? 0)%N
              || (fromTokenId =? toTokenId)%N
              || match fee with Some f => f <? 0 | None => true end).
Proof.
  unfold invalidParams1.
  rewrite !orElse_Returned.
  destruct fee as [f |]; cbn [isNil deref bind].
  - rewrite Cmp_Zero_ltb, orElse_Returned, orb_false_r. reflexivity.
  - rewrite !orb_true_r. reflexivity.
Qed.

(** With every tested pointer set, the opening test of side 1 looks at the
    token ids and the sign of the fee only. *)
Lemma invalidParams1_Some (C_ receiverC_ : ElGamalEnc) (pk_ receiverPk_ : curve.Point)
    (bStarFrom_ bStarTo_ sk_ : Z) (fromTokenId toTokenId : N) (fee_ : Z) :
  invalidParams1 (Some C_) (Some receiverC_) (Some pk_) (Some receiverPk_)
    (Some bStarFrom_) (Some bStarTo_) (Some sk_) fromTokenId toTokenId (Some fee_)
  = Returned ((fromTokenId =? 0)%N || (toTokenId =? 0)%N
              || (fromTokenId =? toTokenId)%N || (fee_ <? 0)).
Proof. rewrite invalidParams1_eq. reflexivity. Qed.

Lemma invalidParams1_valid (C_ receiverC_ : ElGamalEnc) (pk_ receiverPk_ : curve.Point)
    (bStarFrom_ bStarTo_ sk_ : Z) (fromTokenId toTokenId : N) (fee_ : Z) :
  fromTokenId <> 0%N -> toTokenId <> 0%N -> fromTokenId <> toTokenId -> 0 <= fee_ ->
  invalidParams1 (Some C_) (Some receiverC_) (Some pk_) (Some receiverPk_)
    (Some bStarFrom_) (Some bStarTo_) (Some sk_) fromTokenId toTokenId (Some fee_)
  = Returned false.
Proof.
  intros Hf Ht Hft Hfee.
  rewrite invalidParams1_Some.
  apply N.eqb_neq in Hf, Ht, Hft. apply Z.ltb_ge in Hfee.
  now rewrite Hf, Ht, Hft, Hfee.
Qed.

Lemma invalidParams1_false_inv C receiverC pk receiverPk bStarFrom bStarTo sk fromTokenId toTokenId fee :
  invalidParams1 C receiverC pk receiverPk bStarFrom bStarTo sk fromTokenId toTokenId fee
  = Returned false ->
  exists C_ receiverC_ pk_ receiverPk_ bStarFrom_ bStarTo_ sk_ fee_,
    C = Some C_ /\ receiverC = Some receiverC_ /\ pk = Some pk_ /\
    receiverPk = Some receiverPk_ /\ bStarFrom = Some bStarFrom_ /\
    bStarTo = Some bStarTo_ /\ sk = Some sk_ /\ fee = Some fee_ /\
    fromTokenId <> 0%N /\ toTokenId <> 0%N /\ fromTokenId <> toTokenId /\ 0 <= fee_.
Proof.
  rewrite invalidParams1_eq. intros Hg.
  injection Hg as Hg.
  repeat (apply orb_false_iff in Hg; destruct Hg as [Hg ?]).
  destruct C, receiverC, pk, receiverPk, bStarFrom, bStarTo, sk, fee;
    try discriminate.
  do 8 eexists. repeat split; try reflexivity.
  - now apply N.eqb_neq.
  - now apply N.eqb_neq.
  - now apply N.eqb_neq.
  - now apply Z.ltb_ge.
Qed.

(** *** C1 *)

(** C1.  A relation returned by [NewSwapRelationPart1] satisfies the witness
    invariant: [BPrime = b - bStarFrom - fee] and it is not negative; [Rs]
    holds [RangeMaxBits] blindings and [RBar] is their sum modulo the group
    order; [T] is the commitment [g^RBar . h^BPrime]. *)
Theorem NewSwapRelationPart1_witness_invariant :
  forall C receiverC pk receiverPk b bStarFrom bStarTo sk fromTokenId toTokenId fee rnd rel,
    NewSwapRelationPart1 C receiverC pk receiverPk b bStarFrom bStarTo sk
      fromTokenId toTokenId fee rnd = Returned rel ->
    exists b_ bStarFrom_ fee_,
      b = Some b_ /\ bStarFrom = Some bStarFrom_ /\ fee = Some fee_ /\
      SwapProofRelationPart.BPrime rel = b_ - bStarFrom_ - fee_ /\
      0 <= SwapProofRelationPart.BPrime rel /\
      length (SwapProofRelationPart.Rs rel) = RangeMaxBits /\
      SwapProofRelationPart.RBar rel
        = sumZ (SwapProofRelationPart.Rs rel) mod curve.Order /\
      SwapProofRelationPart.T rel
        = curve.Add (curve.ScalarMul curve.G (SwapProofRelationPart.RBar rel))
                    (curve.ScalarMul curve.H (SwapProofRelationPart.BPrime rel)).
Proof.
  intros C receiverC pk receiverPk b bStarFrom bStarTo sk fromTokenId toTokenId fee rnd rel Hrun.
  unfold NewSwapRelationPart1, invalidParams1 in Hrun.
  explore Hrun.
  injection Hrun as <-.
  match goal with
  | Hs : sampleBlindings _ _ _ = (?rs, ?r, _) |- _ =>
      pose proof (sampleBlindings_length RangeMaxBits (fun n => rnd (S n)) 0) as Hlen;
      pose proof (sampleBlindings_sum RangeMaxBits (fun n => rnd (S n)) 0) as Hsum;
      rewrite Hs in Hlen, Hsum; cbn [fst snd] in Hlen, Hsum
  end.
  match goal with
  | Hb : (_ - _ - _ <? 0) = false |- _ => apply Z.ltb_ge in Hb
  end.
  do 3 eexists.
  cbn [SwapProofRelationPart.BPrime SwapProofRelationPart.Rs
       SwapProofRelationPart.RBar SwapProofRelationPart.T].
  repeat split; try reflexivity; try assumption.
  rewrite Hsum. reflexivity.
Qed.

(** What [p.Equal(q)] answers, for a curve whose [Equal] decides equality. *)
Lemma Equal_same {laws : curve.Laws grp} (p q : curve.Point) :
  p = q -> curve.Equal p q = true.
Proof. intros e. now apply curve.Equal_eq. Qed.

Lemma Equal_differ {laws : curve.Laws grp} (p q : curve.Point) :
  p <> q -> curve.Equal p q = false.
Proof.
  intros ne. destruct (curve.Equal p q) eqn:E; [| reflexivity].
  apply curve.Equal_eq in E. contradiction.
Qed.

(** The run of side 1 up to the balance test, for inputs that pass the
    opening test and the public-key test. *)
Lemma NewSwapRelationPart1_at_balance {laws : curve.Laws grp}
    C_ receiverC pk_ receiverPk b_ bStarFrom bStarTo sk_ fromTokenId toTokenId fee rnd skInv :
  invalidParams1 (Some C_) receiverC (Some pk_) receiverPk bStarFrom bStarTo (Some sk_)
    fromTokenId toTokenId fee = Returned false ->
  curve.ScalarBaseMul sk_ = pk_ ->
  ffmath.ModInverse sk_ curve.Order = Some skInv ->
  curve.Equal (curve.Add (CR C_) (curve.Neg (curve.ScalarMul (CL C_) skInv)))
              (curve.ScalarMul curve.H b_) = false ->
  NewSwapRelationPart1 (Some C_) receiverC (Some pk_) receiverPk (Some b_) bStarFrom bStarTo
    (Some sk_) fromTokenId toTokenId fee rnd = Failed ErrIncorrectBalance.
Proof.
  intros Hg Hpk Hinv Hne.
  unfold NewSwapRelationPart1. rewrite Hg. run.
  rewrite (Equal_same _ _ Hpk), Hinv. run.
  rewrite Hne. reflexivity.
Qed.

(** *** C2 *)

(** C2.  Once the opening test and the public-key test have passed, side 1
    returns [ErrIncorrectBalance] exactly when [C.CR - (1/sk) . C.CL]
    differs from [b . H]; a claimed balance for which the two points are
    equal is accepted by this test. *)
Theorem NewSwapRelationPart1_balance_check {laws : curve.Laws grp} :
  forall C_ receiverC pk_ receiverPk b_ bStarFrom bStarTo sk_ fromTokenId toTokenId fee rnd skInv,
    invalidParams1 (Some C_) receiverC (Some pk_) receiverPk bStarFrom bStarTo (Some sk_)
      fromTokenId toTokenId fee = Returned false ->
    curve.ScalarBaseMul sk_ = pk_ ->
    ffmath.ModInverse sk_ curve.Order = Some skInv ->
    (NewSwapRelationPart1 (Some C_) receiverC (Some pk_) receiverPk (Some b_) bStarFrom bStarTo
       (Some sk_) fromTokenId toTokenId fee rnd = Failed ErrIncorrectBalance
     <-> curve.Add (CR C_) (curve.Neg (curve.ScalarMul (CL C_) skInv))
         <> curve.ScalarMul curve.H b_).
Proof.
  intros C_ receiverC pk_ receiverPk b_ bStarFrom bStarTo sk_ fromTokenId toTokenId fee rnd skInv
    Hg Hpk Hinv.
  split.
  - intros Hrun Heq.
    unfold NewSwapRelationPart1 in Hrun. rewrite Hg in Hrun. run_in Hrun.
    rewrite (Equal_same _ _ Hpk), Hinv in Hrun. run_in Hrun.
    rewrite (Equal_same _ _ Heq) in Hrun.
    explore Hrun.
  - intros Hne.
    apply NewSwapRelationPart1_at_balance with (skInv := skInv); try assumption.
    now apply Equal_differ.
Qed.

(** *** C3 *)

(** C3.  Side 1 reports the first failed precondition, in this order: an
    invalid parameter (a nil among the tested pointers, a zero token id,
    equal token ids, a negative fee) gives [ErrInvalidParams]; then
    [sk . G <> pk] gives [ErrInconsistentPublicKey]; then a claimed balance
    that does not match the ciphertext gives [ErrIncorrectBalance]; then
    [b <= 0] gives [ErrInsufficientBalance]; then [bStarFrom <= 0] gives
    [ErrPostiveBStar]; then [b - bStarFrom - fee < 0] gives
    [ErrInsufficientBalance].  Each later check is reached only when all
    earlier ones passed, whatever the later inputs are. *)
Theorem NewSwapRelationPart1_check_order {laws : curve.Laws grp} :
  forall C receiverC pk receiverPk b bStarFrom bStarTo sk fromTokenId toTokenId fee rnd,
    let result :=
      NewSwapRelationPart1 C receiverC pk receiverPk b bStarFrom bStarTo sk
        fromTokenId toTokenId fee rnd in
    ((C = None \/ receiverC = None \/ pk = None \/ receiverPk = None \/
      bStarFrom = None \/ bStarTo = None \/ sk = None \/
      fromTokenId = 0%N \/ toTokenId = 0%N \/ fromTokenId = toTokenId \/
      fee = None \/ (exists fee_, fee = Some fee_ /\ fee_ < 0)) ->
     result = Failed ErrInvalidParams)
    /\
    (forall C_ receiverC_ pk_ receiverPk_ bStarFrom_ bStarTo_ sk_ fee_,
       C = Some C_ -> receiverC = Some receiverC_ -> pk = Some pk_ ->
       receiverPk = Some receiverPk_ -> bStarFrom = Some bStarFrom_ ->
       bStarTo = Some bStarTo_ -> sk = Some sk_ -> fee = Some fee_ ->
       fromTokenId <> 0%N -> toTokenId <> 0%N -> fromTokenId <> toTokenId ->
       0 <= fee_ ->
       (curve.ScalarBaseMul sk_ <> pk_ -> result = Failed ErrInconsistentPublicKey)
       /\
       (curve.ScalarBaseMul sk_ = pk_ ->
        forall skInv b_,
          ffmath.ModInverse sk_ curve.Order = Some skInv -> b = Some b_ ->
          let hb := curve.Add (CR C_) (curve.Neg (curve.ScalarMul (CL C_) skInv)) in
          (hb <> curve.ScalarMul curve.H b_ -> result = Failed ErrIncorrectBalance)
          /\
          (hb = curve.ScalarMul curve.H b_ ->
           (b_ <= 0 -> result = Failed ErrInsufficientBalance)
           /\
           (0 < b_ ->
            (bStarFrom_ <= 0 -> result = Failed ErrPostiveBStar)
            /\
            (0 < bStarFrom_ ->
             b_ - bStarFrom_ - fee_ < 0 -> result = Failed ErrInsufficientBalance))))).
Proof.
  intros C receiverC pk receiverPk b bStarFrom bStarTo sk fromTokenId toTokenId fee rnd result.
  subst result. split.
  - intros Hbad.
    unfold NewSwapRelationPart1. rewrite invalidParams1_eq.
    match goal with
    | |- bind (Returned ?g) _ = _ => assert (g = true) as ->; [| reflexivity]
    end.
    repeat (destruct Hbad as [-> | Hbad];
            [cbn [isNil]; rewrite ?N.eqb_refl, ?orb_true_r; reflexivity |]).
    destruct Hbad as (fee_ & -> & Hneg).
    apply Z.ltb_lt in Hneg. rewrite Hneg. apply orb_true_r.
  - intros C_ receiverC_ pk_ receiverPk_ bStarFrom_ bStarTo_ sk_ fee_
      -> -> -> -> -> -> -> -> Hf Ht Hft Hfee.
    unfold NewSwapRelationPart1.
    rewrite invalidParams1_valid by assumption. run.
    split.
    + intros Hpk. now rewrite (Equal_differ _ _ Hpk).
    + intros Hpk skInv b_ Hinv ->.
      rewrite (Equal_same _ _ Hpk), Hinv. run.
      split.
      * intros Hne. now rewrite (Equal_differ _ _ Hne).
      * intros Heq. rewrite (Equal_same _ _ Heq). run.
        split.
        -- intros Hb. apply Z.leb_le in Hb. now rewrite Hb.
        -- intros Hb. apply Z.leb_gt in Hb. rewrite Hb.
           split.
           ++ intros Hs. apply Z.leb_le in Hs. now rewrite Hs.
           ++ intros Hs Hlt. apply Z.leb_gt in Hs. rewrite Hs. run.
              apply Z.ltb_lt in Hlt. now rewrite Hlt.
Qed.

(** *** C4 *)

(** C4.  In a relation returned by side 1, [CStar] encrypts
    [-(bStarFrom + fee)] under [pk] and [ReceiverCStar] encrypts
    [bStarFrom + fee] under [receiverPk], both with randomness [RStar];
    [TDivCRprime = T - (C.CR + CStar.CR)], [CLprimeInv = -(C.CL + CStar.CL)],
    [Ht1 = fromTokenId . H], [Ht2 = toTokenId . H], [Pt1 = sk . Ht1] and
    [Pt2 = sk . Ht2]. *)
Theorem NewSwapRelationPart1_public_fields :
  forall C receiverC pk receiverPk b bStarFrom bStarTo sk fromTokenId toTokenId fee rnd rel,
    NewSwapRelationPart1 C receiverC pk receiverPk b bStarFrom bStarTo sk
      fromTokenId toTokenId fee rnd = Returned rel ->
    exists C_ pk_ receiverPk_ bStarFrom_ fee_ sk_,
      C = Some C_ /\ pk = Some pk_ /\ receiverPk = Some receiverPk_ /\
      bStarFrom = Some bStarFrom_ /\ fee = Some fee_ /\ sk = Some sk_ /\
      SwapProofRelationPart.C rel = C_ /\
      twistedElgamal.Enc (- (bStarFrom_ + fee_)) (SwapProofRelationPart.RStar rel) pk_
        = Returned (SwapProofRelationPart.CStar rel) /\
      twistedElgamal.Enc (bStarFrom_ + fee_) (SwapProofRelationPart.RStar rel) receiverPk_
        = Returned (SwapProofRelationPart.ReceiverCStar rel) /\
      SwapProofRelationPart.TDivCRprime rel
        = curve.Add (SwapProofRelationPart.T rel)
            (curve.Neg (curve.Add (CR C_) (CR (SwapProofRelationPart.CStar rel)))) /\
      SwapProofRelationPart.CLprimeInv rel
        = curve.Neg (curve.Add (CL C_) (CL (SwapProofRelationPart.CStar rel))) /\
      SwapProofRelationPart.Ht1 rel = curve.ScalarMul curve.H (Z.of_N fromTokenId) /\
      SwapProofRelationPart.Ht2 rel = curve.ScalarMul curve.H (Z.of_N toTokenId) /\
      SwapProofRelationPart.Pt1 rel = curve.ScalarMul (SwapProofRelationPart.Ht1 rel) sk_ /\
      SwapProofRelationPart.Pt2 rel = curve.ScalarMul (SwapProofRelationPart.Ht2 rel) sk_.
Proof.
  intros C receiverC pk receiverPk b bStarFrom bStarTo sk fromTokenId toTokenId fee rnd rel Hrun.
  unfold NewSwapRelationPart1, invalidParams1 in Hrun.
  explore Hrun.
  injection Hrun as <-.
  do 6 eexists.
  repeat (split; [reflexivity |]).
  reflexivity.
Qed.

(** The run of side 1 on inputs that pass every check. *)
Lemma NewSwapRelationPart1_succeeds {laws : curve.Laws grp}
    C_ receiverC_ pk_ receiverPk_ b_ bStarFrom_ bStarTo_ sk_ fromTokenId toTokenId fee_ rnd skInv :
  fromTokenId <> 0%N -> toTokenId <> 0%N -> fromTokenId <> toTokenId -> 0 <= fee_ ->
  curve.ScalarBaseMul sk_ = pk_ ->
  ffmath.ModInverse sk_ curve.Order = Some skInv ->
  curve.Add (CR C_) (curve.Neg (curve.ScalarMul (CL C_) skInv)) = curve.ScalarMul curve.H b_ ->
  0 < b_ -> 0 < bStarFrom_ -> 0 <= b_ - bStarFrom_ - fee_ ->
  exists rel,
    NewSwapRelationPart1 (Some C_) (Some receiverC_) (Some pk_) (Some receiverPk_)
      (Some b_) (Some bStarFrom_) (Some bStarTo_) (Some sk_) fromTokenId toTokenId
      (Some fee_) rnd = Returned rel
    /\ SwapProofRelationPart.BPrime rel = b_ - bStarFrom_ - fee_.
Proof.
  intros Hf Ht Hft Hfee Hpk Hinv Hbal Hb Hs Hrest.
  unfold NewSwapRelationPart1.
  rewrite invalidParams1_valid by assumption. run.
  rewrite (Equal_same _ _ Hpk), Hinv. run.
  rewrite (Equal_same _ _ Hbal). run.
  apply Z.leb_gt in Hb, Hs. apply Z.ltb_ge in Hrest.
  rewrite Hb, Hs. run. rewrite Hrest.
  destruct (sampleBlindings RangeMaxBits _ 0) as [[rs rBar] t'].
  eexists. split; reflexivity.
Qed.

(** The run of side 1 on inputs that pass every check but the last. *)
Lemma NewSwapRelationPart1_shortfall {laws : curve.Laws grp}
    C_ receiverC_ pk_ receiverPk_ b_ bStarFrom_ bStarTo_ sk_ fromTokenId toTokenId fee_ rnd skInv :
  fromTokenId <> 0%N -> toTokenId <> 0%N -> fromTokenId <> toTokenId -> 0 <= fee_ ->
  curve.ScalarBaseMul sk_ = pk_ ->
  ffmath.ModInverse sk_ curve.Order = Some skInv ->
  curve.Add (CR C_) (curve.Neg (curve.ScalarMul (CL C_) skInv)) = curve.ScalarMul curve.H b_ ->
  0 < b_ -> 0 < bStarFrom_ -> b_ - bStarFrom_ - fee_ < 0 ->
  NewSwapRelationPart1 (Some C_) (Some receiverC_) (Some pk_) (Some receiverPk_)
    (Some b_) (Some bStarFrom_) (Some bStarTo_) (Some sk_) fromTokenId toTokenId
    (Some fee_) rnd = Failed ErrInsufficientBalance.
Proof.
  intros Hf Ht Hft Hfee Hpk Hinv Hbal Hb Hs Hshort.
  unfold NewSwapRelationPart1.
  rewrite invalidParams1_valid by assumption. run.
  rewrite (Equal_same _ _ Hpk), Hinv. run.
  rewrite (Equal_same _ _ Hbal). run.
  apply Z.leb_gt in Hb, Hs. apply Z.ltb_lt in Hshort.
  rewrite Hb, Hs. run. now rewrite Hshort.
Qed.

(** *** C9 *)

(** C9.  Side 1 accepts a swap that spends the whole balance: on inputs
    that pass every other check, [b = bStarFrom + fee] gives a relation
    with [BPrime = 0].  The last rejection is strict: with [0 < b] it
    happens exactly when [b - bStarFrom - fee < 0], and any remainder
    [>= 0] gives a relation carrying it. *)
Theorem NewSwapRelationPart1_spend_all {laws : curve.Laws grp} :
  forall C_ receiverC_ pk_ receiverPk_ b_ bStarFrom_ bStarTo_ sk_ fromTokenId toTokenId fee_ rnd skInv,
    fromTokenId <> 0%N -> toTokenId <> 0%N -> fromTokenId <> toTokenId -> 0 <= fee_ ->
    curve.ScalarBaseMul sk_ = pk_ ->
    ffmath.ModInverse sk_ curve.Order = Some skInv ->
    curve.Add (CR C_) (curve.Neg (curve.ScalarMul (CL C_) skInv)) = curve.ScalarMul curve.H b_ ->
    0 < bStarFrom_ ->
    let result :=
      NewSwapRelationPart1 (Some C_) (Some receiverC_) (Some pk_) (Some receiverPk_)
        (Some b_) (Some bStarFrom_) (Some bStarTo_) (Some sk_) fromTokenId toTokenId
        (Some fee_) rnd in
    (b_ = bStarFrom_ + fee_ ->
     exists rel, result = Returned rel /\ SwapProofRelationPart.BPrime rel = 0)
    /\
    (0 < b_ ->
     (result = Failed ErrInsufficientBalance <-> b_ - bStarFrom_ - fee_ < 0)
     /\
     (0 <= b_ - bStarFrom_ - fee_ ->
      exists rel, result = Returned rel
                  /\ SwapProofRelationPart.BPrime rel = b_ - bStarFrom_ - fee_)).
Proof.
  intros C_ receiverC_ pk_ receiverPk_ b_ bStarFrom_ bStarTo_ sk_ fromTokenId toTokenId fee_ rnd skInv
    Hf Ht Hft Hfee Hpk Hinv Hbal Hs result.
  assert (Hok : 0 < b_ -> 0 <= b_ - bStarFrom_ - fee_ ->
                exists rel, result = Returned rel
                            /\ SwapProofRelationPart.BPrime rel = b_ - bStarFrom_ - fee_).
  { intros Hb Hrest.
    now apply NewSwapRelationPart1_succeeds with (skInv := skInv). }
  split; [| intros Hb; split; [split |]].
  - intros Hall.
    destruct Hok as (rel & Hrel & Hbp); [lia | lia |].
    exists rel. split; [exact Hrel | lia].
  - intros Hfail.
    destruct (Z.lt_ge_cases (b_ - bStarFrom_ - fee_) 0) as [Hlt | Hge]; [exact Hlt |].
    destruct (Hok Hb Hge) as (rel & Hrel & _).
    rewrite Hrel in Hfail. discriminate Hfail.
  - intros Hlt.
    now apply NewSwapRelationPart1_shortfall with (skInv := skInv).
  - exact (Hok Hb).
Qed.

(** A nil claimed balance is not among the tested pointers: with every
    tested parameter valid, the call goes on to the public-key test, and
    past it reads through the nil pointer. *)
Lemma NewSwapRelationPart1_nil_balance
    C_ receiverC_ pk_ receiverPk_ bStarFrom_ bStarTo_ sk_ fromTokenId toTokenId fee_ rnd :
  fromTokenId <> 0%N -> toTokenId <> 0%N -> fromTokenId <> toTokenId -> 0 <= fee_ ->
  NewSwapRelationPart1 (Some C_) (Some receiverC_) (Some pk_) (Some receiverPk_)
    None (Some bStarFrom_) (Some bStarTo_) (Some sk_) fromTokenId toTokenId
    (Some fee_) rnd
  = if curve.Equal (curve.ScalarBaseMul sk_) pk_
    then NilDeref
    else Failed ErrInconsistentPublicKey.
Proof.
  intros Hf Ht Hft Hfee.
  unfold NewSwapRelationPart1.
  rewrite invalidParams1_valid by assumption. run.
  destruct (curve.Equal (curve.ScalarBaseMul sk_) pk_); run; [| reflexivity].
  destruct (ffmath.ModInverse sk_ curve.Order); reflexivity.
Qed.

End Part1.

Section Part2.

Context {grp : curve.Group} {ff : ffmath.Field} {cfg : Config}.

(** The opening test of side 2, spelled out: the first nine conditions
    never fault; past them the part is non-nil, its [Ht1], [Ht2] are
    compared with nil, and then [BStar1] and [BStar2] are read through. *)
Lemma invalidParams2_eq C receiverC pk receiverPk sk fromTokenId toTokenId proof :
  invalidParams2 C receiverC pk receiverPk sk fromTokenId toTokenId proof
  = if isNil C || isNil receiverC || isNil pk || isNil receiverPk || isNil sk
       || isNil proof || (fromTokenId =? 0)%N || (toTokenId =? 0)%N
       || (fromTokenId =? toTokenId)%N
    then Returned true
    else
      p <- deref proof ;;
      if isNil (SwapProofPart.Ht1 p) || isNil (SwapProofPart.Ht2 p) then Returned true
      else
        bStar1 <- deref (SwapProofPart.BStar1 p) ;;
        if bStar1 <=? 0 then Returned true
        else
          bStar2 <- deref (SwapProofPart.BStar2 p) ;;
          Returned (bStar2 <=? 0).
Proof.
  unfold invalidParams2.
  rewrite !orElse_Returned.
  match goal with
  | |- context [if ?g then _ else _] => destruct g eqn:Hg
  end.
  - reflexivity.
  - rewrite !orElse_false.
    destruct proof as [p |]; cbn [deref bind].
    + destruct (SwapProofPart.Ht1 p), (SwapProofPart.Ht2 p); cbn [isNil orb orElse bind];
        try reflexivity.
      destruct (SwapProofPart.BStar1 p) as [bStar1 |]; cbn [deref bind]; [| reflexivity].
      rewrite Cmp_0_leb.
      destruct (bStar1 <=? 0); cbn [orElse bind]; [reflexivity |].
      destruct (SwapProofPart.BStar2 p) as [bStar2 |]; cbn [deref bind]; [| reflexivity].
      now rewrite Cmp_0_leb.
    + cbn [isNil] in Hg. rewrite !orb_true_r in Hg. discriminate Hg.
Qed.

(** Inputs that pass the opening test of side 2. *)
Lemma invalidParams2_false_inv C receiverC pk receiverPk sk fromTokenId toTokenId proof :
  invalidParams2 C receiverC pk receiverPk sk fromTokenId toTokenId proof = Returned false ->
  exists C_ receiverC_ pk_ receiverPk_ sk_ p proofHt1 proofHt2 bStar1 bStar2,
    C = Some C_ /\ receiverC = Some receiverC_ /\ pk = Some pk_ /\
    receiverPk = Some receiverPk_ /\ sk = Some sk_ /\ proof = Some p /\
    fromTokenId <> 0%N /\ toTokenId <> 0%N /\ fromTokenId <> toTokenId /\
    SwapProofPart.Ht1 p = Some proofHt1 /\ SwapProofPart.Ht2 p = Some proofHt2 /\
    SwapProofPart.BStar1 p = Some bStar1 /\ 0 < bStar1 /\
    SwapProofPart.BStar2 p = Some bStar2 /\ 0 < bStar2.
Proof.
  rewrite invalidParams2_eq. intros Hg.
  match type of Hg with
  | (if ?g then _ else _) = _ => destruct g eqn:Hpre; [discriminate Hg |]
  end.
  repeat (apply orb_false_iff in Hpre; destruct Hpre as [Hpre ?]).
  destruct C, receiverC, pk as [pk_ |], receiverPk as [receiverPk_ |], sk,
    proof as [p |]; try discriminate.
  cbn [deref bind] in Hg.
  destruct (SwapProofPart.Ht1 p) as [proofHt1 |] eqn:E1; [| discriminate Hg].
  destruct (SwapProofPart.Ht2 p) as [proofHt2 |] eqn:E2; [| discriminate Hg].
  cbn [isNil orb] in Hg.
  destruct (SwapProofPart.BStar1 p) as [bStar1 |] eqn:E3; [| discriminate Hg].
  cbn [deref bind] in Hg.
  destruct (Z.leb_spec bStar1 0) as [? | Hpos1]; [discriminate Hg |].
  destruct (SwapProofPart.BStar2 p) as [bStar2 |] eqn:E4; [| discriminate Hg].
  cbn [deref bind] in Hg. injection Hg as Hg. apply Z.leb_gt in Hg.
  do 10 eexists.
  repeat split; try reflexivity; try eassumption; now apply N.eqb_neq.
Qed.

(** *** C7 *)

(** C7.  Once the opening test and the public-key test of side 2 have
    passed, a part whose [Ht1] differs from [fromTokenId . H], or whose
    [Ht2] differs from [toTokenId . H], is rejected with
    [ErrInvalidSwapProof]. *)
Theorem NewSwapRelationPart2_tampered_part {laws : curve.Laws grp} :
  forall C receiverC pk_ receiverPk b sk_ fromTokenId toTokenId p rnd,
    invalidParams2 C receiverC (Some pk_) receiverPk (Some sk_) fromTokenId toTokenId (Some p)
      = Returned false ->
    curve.ScalarBaseMul sk_ = pk_ ->
    SwapProofPart.Ht1 p <> Some (curve.ScalarMul curve.H (Z.of_N fromTokenId))
    \/ SwapProofPart.Ht2 p <> Some (curve.ScalarMul curve.H (Z.of_N toTokenId)) ->
    NewSwapRelationPart2 C receiverC (Some pk_) receiverPk b (Some sk_)
      fromTokenId toTokenId (Some p) rnd = Failed ErrInvalidSwapProof.
Proof.
  intros C receiverC pk_ receiverPk b sk_ fromTokenId toTokenId p rnd Hg Hpk Htamper.
  unfold NewSwapRelationPart2. rewrite Hg.
  apply invalidParams2_false_inv in Hg.
  destruct Hg as (C_ & receiverC_ & pk' & receiverPk_ & sk' & p' & proofHt1 & proofHt2
                  & bStar1 & bStar2 & _ & _ & _ & _ & _ & Hp & _ & _ & _ & H1 & H2 & _).
  injection Hp as <-.
  run. rewrite (Equal_same _ _ Hpk), H1, H2. run.
  destruct Htamper as [Hne | Hne].
  - rewrite Equal_differ; [reflexivity |].
    intros Heq. apply Hne. now rewrite H1, Heq.
  - rewrite (Equal_differ _ proofHt2); [now rewrite orb_true_r |].
    intros Heq. apply Hne. now rewrite H2, Heq.
Qed.

(** The opening test of side 2 yields a boolean or faults; it does not
    itself produce an error value. *)
Lemma invalidParams2_not_Failed C receiverC pk receiverPk sk fromTokenId toTokenId proof e :
  invalidParams2 C receiverC pk receiverPk sk fromTokenId toTokenId proof <> Failed e.
Proof.
  rewrite invalidParams2_eq.
  destruct (_ || _); [discriminate |].
  destruct proof as [p |]; cbn [deref bind]; [| discriminate].
  destruct (_ || _); [discriminate |].
  destruct (SwapProofPart.BStar1 p) as [bStar1 |]; cbn [deref bind]; [| discriminate].
  destruct (bStar1 <=? 0); [discriminate |].
  destruct (SwapProofPart.BStar2 p); cbn [deref bind]; discriminate.
Qed.

(** *** C10 *)

(** C10.  [NewSwapRelationPart2] never returns [ErrPostiveBStar]: its test
    of [proof.BStar2 <= 0] after the balance checks cannot succeed.  A nil
    part is answered by [ErrInvalidParams] in the opening test, and so is a
    part with [BStar2 <= 0], unless the opening test stops earlier by
    reading through a nil [BStar1]; either way the call ends there. *)
Theorem NewSwapRelationPart2_never_ErrPostiveBStar :
  forall C receiverC pk receiverPk b sk fromTokenId toTokenId proof rnd,
    let result :=
      NewSwapRelationPart2 C receiverC pk receiverPk b sk fromTokenId toTokenId proof rnd in
    result <> Failed ErrPostiveBStar
    /\ (proof = None -> result = Failed ErrInvalidParams)
    /\ (forall p bStar2,
          proof = Some p -> SwapProofPart.BStar2 p = Some bStar2 -> bStar2 <= 0 ->
          result = Failed ErrInvalidParams
          \/ (SwapProofPart.BStar1 p = None /\ result = NilDeref)).
Proof.
  intros C receiverC pk receiverPk b sk fromTokenId toTokenId proof rnd result.
  subst result. unfold NewSwapRelationPart2.
  split; [| split].
  - destruct (invalidParams2 C receiverC pk receiverPk sk fromTokenId toTokenId proof)
      as [[|] | e |] eqn:Hg; cbn [bind]; try discriminate.
    + apply invalidParams2_false_inv in Hg.
      destruct Hg as (C_ & receiverC_ & pk_ & receiverPk_ & sk_ & p & proofHt1 & proofHt2
                      & bStar1 & bStar2 & -> & -> & -> & -> & -> & -> & _ & _ & _
                      & E1 & E2 & E3 & Hpos1 & E4 & Hpos2).
      intros Hrun. run_in Hrun. rewrite E1, E2, E3, E4 in Hrun.
      apply Z.leb_gt in Hpos2.
      explore Hrun.
      all: congruence.
    + now apply invalidParams2_not_Failed in Hg.
  - intros ->. rewrite invalidParams2_eq.
    cbn [isNil]. now rewrite !orb_true_r.
  - intros p bStar2 -> E4 Hle. rewrite invalidParams2_eq.
    destruct (_ || _); [now left |].
    cbn [deref bind].
    destruct (_ || _); [now left |].
    destruct (SwapProofPart.BStar1 p) as [bStar1 |]; cbn [deref bind]; [| now right].
    destruct (bStar1 <=? 0); [now left |].
    rewrite E4. cbn [deref bind].
    apply Z.leb_le in Hle. rewrite Hle. now left.
Qed.

(** *** C5 *)

(** C5 (as the code has it).  Side 2 pays out the amount published as
    [BStar2]: the remaining balance is [b - BStar2], [CStar] encrypts
    [-BStar2] under the own key and [ReceiverCStar] encrypts [BStar2]
    under the receiver's.  The relation keeps the orientation of the
    published part: [BStarFrom] is the part's [BStar1] and [BStarTo] its
    [BStar2]; for the part published from a side-1 relation these are that
    relation's [BStarFrom] and [BStarTo]. *)
Theorem NewSwapRelationPart2_amounts :
  forall C receiverC pk receiverPk b sk fromTokenId toTokenId p rnd rel,
    NewSwapRelationPart2 C receiverC pk receiverPk b sk fromTokenId toTokenId (Some p) rnd
      = Returned rel ->
    exists b_ pk_ receiverPk_ bStar1 bStar2,
      b = Some b_ /\ pk = Some pk_ /\ receiverPk = Some receiverPk_ /\
      SwapProofPart.BStar1 p = Some bStar1 /\ SwapProofPart.BStar2 p = Some bStar2 /\
      SwapProofRelationPart.BStarFrom rel = bStar1 /\
      SwapProofRelationPart.BStarTo rel = bStar2 /\
      SwapProofRelationPart.BPrime rel = b_ - bStar2 /\
      twistedElgamal.Enc (- bStar2) (SwapProofRelationPart.RStar rel) pk_
        = Returned (SwapProofRelationPart.CStar rel) /\
      twistedElgamal.Enc bStar2 (SwapProofRelationPart.RStar rel) receiverPk_
        = Returned (SwapProofRelationPart.ReceiverCStar rel) /\
      (forall rel1, p = publishedPart rel1 ->
         SwapProofRelationPart.BStarFrom rel = SwapProofRelationPart.BStarFrom rel1
         /\ SwapProofRelationPart.BStarTo rel = SwapProofRelationPart.BStarTo rel1).
Proof.
  intros C receiverC pk receiverPk b sk fromTokenId toTokenId p rnd rel Hrun.
  unfold NewSwapRelationPart2 in Hrun.
  destruct (invalidParams2 C receiverC pk receiverPk sk fromTokenId toTokenId (Some p))
    as [[|] | e |] eqn:Hg; cbn [bind] in Hrun; try discriminate Hrun.
  apply invalidParams2_false_inv in Hg.
  destruct Hg as (C_ & receiverC_ & pk_ & receiverPk_ & sk_ & p' & proofHt1 & proofHt2
                  & bStar1 & bStar2 & -> & -> & -> & -> & -> & Hp & _ & _ & _
                  & E1 & E2 & E3 & _ & E4 & _).
  injection Hp as <-.
  run_in Hrun. rewrite E1, E2, E3, E4 in Hrun.
  explore Hrun.
  injection Hrun as <-.
  do 5 eexists.
  repeat (split; [first [reflexivity | eassumption] |]).
  intros rel1 ->. cbn in E3, E4.
  injection E3 as <-. injection E4 as <-.
  split; reflexivity.
Qed.

End Part2.

Section BothSides.

Context {grp : curve.Group} {ff : ffmath.Field} {cfg : Config}.

(** *** C6 *)

(** C6.  The fee is charged on the first leg only.  Side 1 subtracts it
    from the remaining balance and encrypts [bStarFrom + fee] into both
    delta ciphertexts.  Side 2 computes [b - proof.BStar2], encrypts
    [proof.BStar2] alone, and takes the [Fee] field of its relation from
    the published part. *)
Theorem fee_on_initiating_leg_only :
  (forall C receiverC pk receiverPk b bStarFrom bStarTo sk fromTokenId toTokenId fee rnd rel,
     NewSwapRelationPart1 C receiverC pk receiverPk b bStarFrom bStarTo sk
       fromTokenId toTokenId fee rnd = Returned rel ->
     exists b_ bStarFrom_ fee_ pk_ receiverPk_,
       b = Some b_ /\ bStarFrom = Some bStarFrom_ /\ fee = Some fee_ /\
       pk = Some pk_ /\ receiverPk = Some receiverPk_ /\
       SwapProofRelationPart.BPrime rel = b_ - bStarFrom_ - fee_ /\
       twistedElgamal.Enc (- (bStarFrom_ + fee_)) (SwapProofRelationPart.RStar rel) pk_
         = Returned (SwapProofRelationPart.CStar rel) /\
       twistedElgamal.Enc (bStarFrom_ + fee_) (SwapProofRelationPart.RStar rel) receiverPk_
         = Returned (SwapProofRelationPart.ReceiverCStar rel) /\
       SwapProofRelationPart.Fee rel = Some fee_)
  /\
  (forall C receiverC pk receiverPk b sk fromTokenId toTokenId proof rnd rel,
     NewSwapRelationPart2 C receiverC pk receiverPk b sk fromTokenId toTokenId proof rnd
       = Returned rel ->
     exists p b_ bStar2 pk_ receiverPk_,
       proof = Some p /\ b = Some b_ /\ SwapProofPart.BStar2 p = Some bStar2 /\
       pk = Some pk_ /\ receiverPk = Some receiverPk_ /\
       SwapProofRelationPart.BPrime rel = b_ - bStar2 /\
       twistedElgamal.Enc (- bStar2) (SwapProofRelationPart.RStar rel) pk_
         = Returned (SwapProofRelationPart.CStar rel) /\
       twistedElgamal.Enc bStar2 (SwapProofRelationPart.RStar rel) receiverPk_
         = Returned (SwapProofRelationPart.ReceiverCStar rel) /\
       SwapProofRelationPart.Fee rel = SwapProofPart.Fee p).
Proof.
  split.
  - intros C receiverC pk receiverPk b bStarFrom bStarTo sk fromTokenId toTokenId fee rnd rel Hrun.
    unfold NewSwapRelationPart1, invalidParams1 in Hrun.
    explore Hrun.
    injection Hrun as <-.
    do 5 eexists.
    repeat (split; [reflexivity |]).
    reflexivity.
  - intros C receiverC pk receiverPk b sk fromTokenId toTokenId proof rnd rel Hrun.
    unfold NewSwapRelationPart2 in Hrun.
    destruct (invalidParams2 C receiverC pk receiverPk sk fromTokenId toTokenId proof)
      as [[|] | e |] eqn:Hg; cbn [bind] in Hrun; try discriminate Hrun.
    apply invalidParams2_false_inv in Hg.
    destruct Hg as (C_ & receiverC_ & pk_ & receiverPk_ & sk_ & p & proofHt1 & proofHt2
                    & bStar1 & bStar2 & -> & -> & -> & -> & -> & -> & _ & _ & _
                    & E1 & E2 & E3 & _ & E4 & _).
    run_in Hrun. rewrite E1, E2, E3, E4 in Hrun.
    explore Hrun.
    injection Hrun as <-.
    do 5 eexists.
    repeat (split; [first [reflexivity | eassumption] |]).
    reflexivity.
Qed.

End BothSides.

(** ** Runs on the small instance *)

Module ToyFacts.

Lemma Equal_decides : curve.Laws Toy.group.
Proof. constructor. intros p q. apply Z.eqb_eq. Qed.

End ToyFacts.

#[local] Existing Instance Toy.group.
#[local] Existing Instance Toy.field.
#[local] Existing Instance Toy.config.
#[local] Existing Instance ToyFacts.Equal_decides.

(** The reference run of side 1 satisfies the witness invariant. *)
Lemma witness_invariant_reference_run :
  exists rel,
    Toy.relationPart1 = Returned rel
    /\ SwapProofRelationPart.BPrime rel = 8 - 1 - 0
    /\ 0 <= SwapProofRelationPart.BPrime rel
    /\ length (SwapProofRelationPart.Rs rel) = 32%nat
    /\ SwapProofRelationPart.RBar rel = sumZ (SwapProofRelationPart.Rs rel) mod 101.
Proof.
  destruct Toy.relationPart1 as [rel | e |] eqn:Hrun;
    [| vm_compute in Hrun; discriminate Hrun | vm_compute in Hrun; discriminate Hrun].
  unfold Toy.relationPart1, Toy.side1 in Hrun.
  destruct (NewSwapRelationPart1_witness_invariant _ _ _ _ _ _ _ _ _ _ _ _ rel Hrun)
    as (b_ & bStarFrom_ & fee_ & Hb & Hs & Hf & Hbp & Hnn & Hlen & Hrbar & _).
  injection Hb as <-. injection Hs as <-. injection Hf as <-.
  exists rel.
  split; [reflexivity |]. split; [exact Hbp |]. split; [exact Hnn |].
  split; [exact Hlen | exact Hrbar].
Defined.

(** Claiming balance 9 for the ciphertext of 8 is answered by
    [ErrIncorrectBalance]; claiming 8 is not. *)
Lemma balance_check_runs :
  Toy.side1 (Some Toy.pk1) (Some 9) (Some 1) 1%N (Some 0) = Failed ErrIncorrectBalance
  /\ Toy.side1 (Some Toy.pk1) (Some 8) (Some 1) 1%N (Some 0) <> Failed ErrIncorrectBalance.
Proof.
  split.
  - apply (NewSwapRelationPart1_balance_check
             Toy.bEnc1 (Some Toy.bEnc2) Toy.pk1 (Some Toy.pk2) 9 (Some 1) (Some 8)
             Toy.sk1 1%N 2%N (Some 0) Toy.rnd 34);
      [reflexivity | reflexivity | reflexivity | vm_compute; discriminate].
  - intros Hrun.
    refine (proj1 (NewSwapRelationPart1_balance_check
                     Toy.bEnc1 (Some Toy.bEnc2) Toy.pk1 (Some Toy.pk2) 8 (Some 1) (Some 8)
                     Toy.sk1 1%N 2%N (Some 0) Toy.rnd 34 _ _ _) Hrun _);
      reflexivity.
Defined.

(** A call that fails only the last check, one that fails the last two,
    and one with a nil key that would fail every later check as well. *)
Lemma check_order_runs :
  Toy.side1 (Some Toy.pk1) (Some 8) (Some 9) 1%N (Some 0) = Failed ErrInsufficientBalance
  /\ Toy.side1 (Some Toy.pk1) (Some 8) (Some 0) 1%N (Some 9) = Failed ErrPostiveBStar
  /\ Toy.side1 None (Some (-1)) (Some 0) 1%N (Some 9) = Failed ErrInvalidParams.
Proof.
  split; [| split].
  - destruct (NewSwapRelationPart1_check_order
                (Some Toy.bEnc1) (Some Toy.bEnc2) (Some Toy.pk1) (Some Toy.pk2) (Some 8)
                (Some 9) (Some 8) (Some Toy.sk1) 1%N 2%N (Some 0) Toy.rnd)
      as [_ Hvalid].
    destruct (Hvalid Toy.bEnc1 Toy.bEnc2 Toy.pk1 Toy.pk2 9 8 Toy.sk1 0
                eq_refl eq_refl eq_refl eq_refl eq_refl eq_refl eq_refl eq_refl
                ltac:(discriminate) ltac:(discriminate) ltac:(discriminate)
                ltac:(discriminate))
      as [_ Hkey].
    destruct (Hkey eq_refl 34 8 eq_refl eq_refl) as [_ Hbalance].
    destruct (Hbalance eq_refl) as [_ Hpositive].
    destruct (Hpositive eq_refl) as [_ Hstar].
    exact (Hstar eq_refl eq_refl).
  - destruct (NewSwapRelationPart1_check_order
                (Some Toy.bEnc1) (Some Toy.bEnc2) (Some Toy.pk1) (Some Toy.pk2) (Some 8)
                (Some 0) (Some 8) (Some Toy.sk1) 1%N 2%N (Some 9) Toy.rnd)
      as [_ Hvalid].
    destruct (Hvalid Toy.bEnc1 Toy.bEnc2 Toy.pk1 Toy.pk2 0 8 Toy.sk1 9
                eq_refl eq_refl eq_refl eq_refl eq_refl eq_refl eq_refl eq_refl
                ltac:(discriminate) ltac:(discriminate) ltac:(discriminate)
                ltac:(discriminate))
      as [_ Hkey].
    destruct (Hkey eq_refl 34 8 eq_refl eq_refl) as [_ Hbalance].
    destruct (Hbalance eq_refl) as [_ Hpositive].
    destruct (Hpositive eq_refl) as [Hstar _].
    apply Hstar. discriminate.
  - destruct (NewSwapRelationPart1_check_order
                (Some Toy.bEnc1) (Some Toy.bEnc2) None (Some Toy.pk2) (Some (-1))
                (Some 0) (Some 8) (Some Toy.sk1) 1%N 2%N (Some 9) Toy.rnd)
      as [Hinvalid _].
    apply Hinvalid. right. right. left. reflexivity.
Defined.

(** The public points of the reference run of side 1. *)
Lemma public_fields_reference_run :
  exists rel,
    Toy.relationPart1 = Returned rel
    /\ twistedElgamal.Enc (- (1 + 0)) (SwapProofRelationPart.RStar rel) Toy.pk1
       = Returned (SwapProofRelationPart.CStar rel)
    /\ twistedElgamal.Enc (1 + 0) (SwapProofRelationPart.RStar rel) Toy.pk2
       = Returned (SwapProofRelationPart.ReceiverCStar rel)
    /\ SwapProofRelationPart.Ht1 rel = curve.ScalarMul curve.H 1
    /\ SwapProofRelationPart.Pt1 rel
       = curve.ScalarMul (SwapProofRelationPart.Ht1 rel) Toy.sk1.
Proof.
  destruct Toy.relationPart1 as [rel | e |] eqn:Hrun;
    [| vm_compute in Hrun; discriminate Hrun | vm_compute in Hrun; discriminate Hrun].
  unfold Toy.relationPart1, Toy.side1 in Hrun.
  destruct (NewSwapRelationPart1_public_fields _ _ _ _ _ _ _ _ _ _ _ _ rel Hrun)
    as (C_ & pk_ & receiverPk_ & bStarFrom_ & fee_ & sk_ & HC & Hpk & Hrpk & Hs & Hf & Hsk
        & _ & HCStar & HRCStar & _ & _ & HHt1 & _ & HPt1 & _).
  injection Hpk as <-. injection Hrpk as <-. injection Hs as <-.
  injection Hf as <-. injection Hsk as <-.
  exists rel.
  split; [reflexivity |]. split; [exact HCStar |]. split; [exact HRCStar |].
  split; [exact HHt1 | exact HPt1].
Defined.

(** C5 as stated fails on the reference scenario: the first party's
    relation has [BStarTo = 8]; the second party's relation, built from the
    part the first party published, pays out 8 ([BPrime = 8 - 8]) and has
    [BStarFrom = 1], not 8. *)
Lemma part2_BStarFrom_is_not_part1_BStarTo :
  exists rel1 rel2,
    Toy.relationPart1 = Returned rel1
    /\ Toy.side2 (Some (publishedPart rel1)) = Returned rel2
    /\ SwapProofRelationPart.BStarTo rel1 = 8
    /\ SwapProofRelationPart.BPrime rel2 = 8 - 8
    /\ SwapProofRelationPart.BStarFrom rel2 = 1
    /\ SwapProofRelationPart.BStarFrom rel2 <> SwapProofRelationPart.BStarTo rel1.
Proof.
  do 2 eexists.
  split; [vm_compute; reflexivity |].
  split; [vm_compute; reflexivity |].
  repeat split; discriminate.
Qed.

(** The reference run of side 2 keeps the amounts of the published part in
    their places and pays out [BStarTo]. *)
Lemma amounts_reference_run :
  exists rel1 rel2,
    Toy.relationPart1 = Returned rel1
    /\ Toy.side2 (Some (publishedPart rel1)) = Returned rel2
    /\ SwapProofRelationPart.BStarFrom rel2 = SwapProofRelationPart.BStarFrom rel1
    /\ SwapProofRelationPart.BStarTo rel2 = SwapProofRelationPart.BStarTo rel1
    /\ SwapProofRelationPart.BPrime rel2 = 8 - SwapProofRelationPart.BStarTo rel2.
Proof.
  destruct Toy.relationPart1 as [rel1 | e |] eqn:Hrun1;
    [| vm_compute in Hrun1; discriminate Hrun1 | vm_compute in Hrun1; discriminate Hrun1].
  vm_compute in Hrun1. injection Hrun1 as <-.
  match goal with
  | |- exists r1 r2, Returned ?r = Returned r1 /\ _ =>
      destruct (Toy.side2 (Some (publishedPart r))) as [rel2 | e |] eqn:Hrun2;
        [| vm_compute in Hrun2; discriminate Hrun2 | vm_compute in Hrun2; discriminate Hrun2];
      unfold Toy.side2 in Hrun2;
      destruct (NewSwapRelationPart2_amounts _ _ _ _ _ _ _ _ _ _ rel2 Hrun2)
        as (b_ & pk_ & receiverPk_ & bStar1 & bStar2 & Hb & _ & _ & _ & _
            & HFrom & HTo & HBPrime & _ & _ & Hpublished);
      destruct (Hpublished r eq_refl) as [HFrom1 HTo1];
      exists r, rel2
  end.
  injection Hb as <-.
  split; [reflexivity |]. split; [exact Hrun2 |].
  split; [exact HFrom1 |]. split; [exact HTo1 |].
  rewrite HTo. exact HBPrime.
Defined.

(** With fee 3 on the first leg (b = 8, bStarFrom = 1) the first party
    keeps [8 - 1 - 3]; the second party, paying out 8 of 8, keeps
    [8 - 8], and its relation carries the fee of the published part. *)
Lemma fee_runs :
  exists rel1 rel2,
    Toy.side1 (Some Toy.pk1) (Some 8) (Some 1) 1%N (Some 3) = Returned rel1
    /\ Toy.side2 (Some (publishedPart rel1)) = Returned rel2
    /\ SwapProofRelationPart.BPrime rel1 = 8 - 1 - 3
    /\ SwapProofRelationPart.BPrime rel2 = 8 - 8
    /\ SwapProofRelationPart.Fee rel2 = Some 3.
Proof.
  destruct fee_on_initiating_leg_only as [Hside1 Hside2].
  destruct (Toy.side1 (Some Toy.pk1) (Some 8) (Some 1) 1%N (Some 3))
    as [rel1 | e |] eqn:Hrun1;
    [| vm_compute in Hrun1; discriminate Hrun1 | vm_compute in Hrun1; discriminate Hrun1].
  pose proof Hrun1 as Hval. vm_compute in Hval. injection Hval as <-.
  unfold Toy.side1 in Hrun1.
  destruct (Hside1 _ _ _ _ _ _ _ _ _ _ _ _ _ Hrun1)
    as (b_ & bStarFrom_ & fee_ & pk_ & receiverPk_ & Hb & Hs & Hf & _ & _ & HBPrime1 & _).
  injection Hb as <-. injection Hs as <-. injection Hf as <-.
  match type of Hrun1 with
  | _ = Returned ?r =>
      destruct (Toy.side2 (Some (publishedPart r))) as [rel2 | e |] eqn:Hrun2;
        [| vm_compute in Hrun2; discriminate Hrun2 | vm_compute in Hrun2; discriminate Hrun2];
      unfold Toy.side2 in Hrun2;
      destruct (Hside2 _ _ _ _ _ _ _ _ _ _ _ Hrun2)
        as (p & b2 & bStar2 & pk2_ & receiverPk2_ & Hp & Hb2 & HbStar2 & _ & _
            & HBPrime2 & _ & _ & HFee);
      exists r, rel2
  end.
  injection Hp as <-. injection Hb2 as <-. injection HbStar2 as <-.
  split; [reflexivity |]. split; [exact Hrun2 |].
  split; [exact HBPrime1 |]. split; [exact HBPrime2 | exact HFee].
Defined.

(** The second party rejects a part of the first party that was made for
    the token pair (3, 2) when it builds for the pair (1, 2). *)
Lemma tampered_part_run :
  exists p,
    Toy.otherPairPart1 = Some p
    /\ SwapProofPart.Ht1 p <> Some (curve.ScalarMul curve.H (Z.of_N 1))
    /\ Toy.side2 (Some p) = Failed ErrInvalidSwapProof.
Proof.
  destruct Toy.otherPairPart1 as [p |] eqn:Hp;
    [| vm_compute in Hp; discriminate Hp].
  vm_compute in Hp. injection Hp as <-.
  eexists. split; [reflexivity |].
  split; [vm_compute; discriminate |].
  apply NewSwapRelationPart2_tampered_part;
    [vm_compute; reflexivity | reflexivity | left; vm_compute; discriminate].
Defined.

(** C8.  A nil claimed balance with every other parameter valid: side 1
    does not answer [ErrInvalidParams].  With a public key that does not
    match the secret key it computes [sk . G] and returns
    [ErrInconsistentPublicKey]; with the matching key it goes on and reads
    through the nil pointer. *)
Theorem NewSwapRelationPart1_nil_balance_runs :
  Toy.side1 (Some Toy.pk2) None (Some 1) 1%N (Some 0) = Failed ErrInconsistentPublicKey
  /\ Toy.side1 (Some Toy.pk1) None (Some 1) 1%N (Some 0) = NilDeref.
Proof. split; vm_compute; reflexivity. Qed.

(** Spending the whole balance: b = 8 = bStarFrom 5 + fee 3. *)
Lemma spend_all_run :
  exists rel,
    Toy.side1 (Some Toy.pk1) (Some 8) (Some 5) 1%N (Some 3) = Returned rel
    /\ SwapProofRelationPart.BPrime rel = 0.
Proof.
  destruct (NewSwapRelationPart1_spend_all
              Toy.bEnc1 Toy.bEnc2 Toy.pk1 Toy.pk2 8 5 8 Toy.sk1 1%N 2%N 3 Toy.rnd 34
              ltac:(discriminate) ltac:(discriminate) ltac:(discriminate)
              ltac:(discriminate) eq_refl eq_refl eq_refl eq_refl)
    as [Hall _].
  exact (Hall eq_refl).
Defined.

(** A nil part, and a part with [BStar2 = 0] whose [BStar1] is nil. *)
Lemma never_ErrPostiveBStar_runs :
  Toy.side2 None = Failed ErrInvalidParams
  /\ (Toy.side2 (Some Toy.zeroBStar2Part) = Failed ErrInvalidParams
      \/ (SwapProofPart.BStar1 Toy.zeroBStar2Part = None
          /\ Toy.side2 (Some Toy.zeroBStar2Part) = NilDeref)).
Proof.
  split.
  - destruct (NewSwapRelationPart2_never_ErrPostiveBStar
                (Some Toy.bEnc3) (Some Toy.bEnc4) (Some Toy.pk2) (Some Toy.pk1)
                (Some 8) (Some Toy.sk2) 1%N 2%N None Toy.rnd) as (_ & Hnil & _).
    exact (Hnil eq_refl).
  - destruct (NewSwapRelationPart2_never_ErrPostiveBStar
                (Some Toy.bEnc3) (Some Toy.bEnc4) (Some Toy.pk2) (Some Toy.pk1)
                (Some 8) (Some Toy.sk2) 1%N 2%N (Some Toy.zeroBStar2Part) Toy.rnd)
      as (_ & _ & Hzero).
    exact (Hzero Toy.zeroBStar2Part 0 eq_refl eq_refl ltac:(discriminate)).
Defined.
